(** * cpuid_raw: the raw CPUID query primitive of cpuidrs (src/c/cpuid.c)

    The C function

      void cpuid_raw(uint32_t leaf, uint32_t subleaf,
                     uint32_t* eax, uint32_t* ebx,
                     uint32_t* ecx, uint32_t* edx)

    has three bodies, selected by the preprocessor.  It never reads memory;
    all it does is obtain four values and store them through the four
    pointers.  The embedding below gives each body as the ordered list of
    stores it performs, and runs such a list on a memory of uint32_t
    objects in which a store through a pointer to no object is an error. *)

From Stdlib Require Import ZArith Lia.
From stdpp Require Import gmap list relations.

Local Open Scope Z_scope.

(** ** Fixed-width integers *)

(** Conversion to [uint32_t]: reduction modulo 2^32. *)
Definition to_uint32 (x : Z) : Z := x mod 2 ^ 32.

(** Conversion to a 32-bit two's complement [int], as the vendor compiler
    does it: the value congruent to [x] modulo 2^32 in [-2^31, 2^31). *)
Definition to_int (x : Z) : Z := (x + 2 ^ 31) mod 2 ^ 32 - 2 ^ 31.

Definition is_uint32 (x : Z) : Prop := 0 <= x < 2 ^ 32.
Definition is_int (x : Z) : Prop := - 2 ^ 31 <= x < 2 ^ 31.

(** ** The toolchain: the macros the preprocessor conditions test *)

Record toolchain := {
  _MSC_VER : bool;   (* defined(_MSC_VER)  *)
  __GNUC__ : bool;   (* defined(__GNUC__)  *)
  __clang__ : bool;  (* defined(__clang__) *)
}.

(** ** The processor *)

(** The four registers the instruction uses. *)
Record regfile := { EAX : Z; EBX : Z; ECX : Z; EDX : Z }.

(** ** Memory *)

(** A [uint32_t] object is either uninitialised or holds a value. *)
Inductive cell := Uninit | Word (v : Z).

(** Memory maps the addresses of the live [uint32_t] objects to their
    contents.  Two properly aligned [uint32_t*] are equal or disjoint, so
    an address names a whole object. *)
Abbreviation ptr := Z (only parsing).
Abbreviation memory := (gmap Z cell) (only parsing).

(** One store [*p = v]. *)
Definition write : Type := Z * Z.
Notation "p ::= v" := (@pair Z Z p v) (at level 60, no associativity).

(** [*p = v] needs an object at [p]; writing through any other pointer
    is an error ([None]). *)
Definition store32 (w : write) (m : memory) : option memory :=
  match m !! w.1 with
  | Some _ => Some (<[w.1 := Word w.2]> m)
  | None => None
  end.

(** Running a straight-line sequence of stores. *)
Fixpoint exec (ws : list write) (m : memory) : option memory :=
  match ws with
  | [] => Some m
  | w :: k =>
      match store32 w m with
      | Some m' => exec k m'
      | None => None
      end
  end.

(** What a sequence of stores leaves in memory when none of them fails. *)
Fixpoint apply_writes (ws : list write) (m : memory) : memory :=
  match ws with
  | [] => m
  | w :: k => apply_writes k (<[w.1 := Word w.2]> m)
  end.

(** Every pointer of [ps] points to an object of [m]. *)
Definition writable (m : memory) (ps : list ptr) : Prop :=
  Forall (λ p, is_Some (m !! p)) ps.

(** The object at [p] holds a 32-bit value (it is not uninitialised). *)
Definition initialised (m : memory) (p : ptr) : Prop :=
  ∃ v, m !! p = Some (Word v) ∧ is_uint32 v.

(** The same as a step relation: a configuration is the stores still to
    be done together with the memory; one step performs the first store. *)
Inductive step : list write * memory → list write * memory → Prop :=
  | step_store w k m m' :
      store32 w m = Some m' → step (w :: k, m) (k, m').

(** Several calls running at once: every thread has its own list of
    remaining stores, all threads share the memory, and the scheduler
    lets any thread do its next store. *)
Inductive pool_step :
    list (list write) * memory → list (list write) * memory → Prop :=
  | pool_step_thread (i : nat) ts k k' m m' :
      ts !! i = Some k →
      step (k, m) (k', m') →
      pool_step (ts, m) (<[i := k']> ts, m').

Definition finished (ts : list (list write)) : Prop := Forall (λ k, k = []) ts.

(** ** The three bodies of cpuid_raw *)

Section Cpuid.

(** What the processor reports for the selector pair found in EAX and
    ECX.  The instruction is not part of the program: its results are a
    parameter. *)
Variable cpuid_data : Z → Z → regfile.

(** The [cpuid] instruction: reads EAX and ECX, overwrites EAX, EBX, ECX
    and EDX, which are 32 bits wide. *)
Definition cpuid (r : regfile) : regfile :=
  let d := cpuid_data (EAX r) (ECX r) in
  {| EAX := to_uint32 (EAX d); EBX := to_uint32 (EBX d);
     ECX := to_uint32 (ECX d); EDX := to_uint32 (EDX d) |}.

(** The vendor intrinsic [void __cpuidex(int cpuInfo[4], int function_id,
    int subfunction_id)], likewise a parameter: the contents it leaves
    in [cpuInfo]. *)
Variable __cpuidex : Z → Z → list Z.

(** [#if defined(_MSC_VER)]
<<
    int regs[4];
    __cpuidex(regs, leaf, subleaf);
    *eax = regs[0]; *ebx = regs[1]; *ecx = regs[2]; *edx = regs[3];
>>
    The [uint32_t] arguments are converted to the [int] parameters, the
    [int] elements are converted back on assignment.  [regs] has four
    elements and the intrinsic fills them all, so the default of [nth] is
    never what is read. *)
Definition cpuid_raw_intrinsic (leaf subleaf : Z) (eax ebx ecx edx : ptr)
    : list write :=
  let regs := __cpuidex (to_int leaf) (to_int subleaf) in
  [ eax ::= to_uint32 (nth 0 regs 0);
    ebx ::= to_uint32 (nth 1 regs 0);
    ecx ::= to_uint32 (nth 2 regs 0);
    edx ::= to_uint32 (nth 3 regs 0) ].

(** [#elif defined(__GNUC__) || defined(__clang__)]
<<
    __asm__ volatile("cpuid"
                     : "=a" ( *eax ), "=b" ( *ebx ), "=c" ( *ecx ), "=d" ( *edx )
                     : "a" (leaf), "c" (subleaf));
>>
    The input operands load [leaf] into EAX and [subleaf] into ECX; EBX
    and EDX keep whatever [rf], the register file at that point, holds.
    After the instruction the output operands are written from EAX, EBX,
    ECX and EDX.  In which order is the compiler's business; it shows only
    when two of the pointers are equal, and what is proved below about the
    contents of the outputs on this path assumes they are not. *)
Definition cpuid_raw_asm (rf : regfile) (leaf subleaf : Z)
    (eax ebx ecx edx : ptr) : list write :=
  let r := cpuid {| EAX := leaf; EBX := EBX rf;
                    ECX := subleaf; EDX := EDX rf |} in
  [ eax ::= EAX r; ebx ::= EBX r; ecx ::= ECX r; edx ::= EDX r ].

(** [#else]
<<
    *eax = *ebx = *ecx = *edx = 0;
>>
    Assignment associates to the right: the innermost store is the one
    through [edx]. *)
Definition cpuid_raw_fallback (eax ebx ecx edx : ptr) : list write :=
  [ edx ::= 0; ecx ::= 0; ebx ::= 0; eax ::= 0 ].

(** The stores of a call, as the preprocessor leaves the function. *)
Definition cpuid_raw_body (tc : toolchain) (rf : regfile)
    (leaf subleaf : Z) (eax ebx ecx edx : ptr) : list write :=
  if _MSC_VER tc then
    cpuid_raw_intrinsic leaf subleaf eax ebx ecx edx
  else if __GNUC__ tc || __clang__ tc then
    cpuid_raw_asm rf leaf subleaf eax ebx ecx edx
  else
    cpuid_raw_fallback eax ebx ecx edx.

(** The call itself. *)
Definition cpuid_raw (tc : toolchain) (rf : regfile)
    (leaf subleaf : Z) (eax ebx ecx edx : ptr) (m : memory)
    : option memory :=
  exec (cpuid_raw_body tc rf leaf subleaf eax ebx ecx edx) m.

(** *** The dispatch as the specification words it

    "1. If compiled for a toolchain that provides an intrinsic ...
     2. Else, if compiled for a toolchain that supports inline assembly ...
     3. Else ... return all four outputs as zero." *)
Inductive branch := Intrinsic | InlineAsm | Fallback.

Definition spec_dispatch (provides_intrinsic supports_inline_asm : bool)
    : branch :=
  if provides_intrinsic then Intrinsic
  else if supports_inline_asm then InlineAsm
  else Fallback.

Definition spec_body (b : branch) (rf : regfile)
    (leaf subleaf : Z) (eax ebx ecx edx : ptr) : list write :=
  match b with
  | Intrinsic => cpuid_raw_intrinsic leaf subleaf eax ebx ecx edx
  | InlineAsm => cpuid_raw_asm rf leaf subleaf eax ebx ecx edx
  | Fallback => cpuid_raw_fallback eax ebx ecx edx
  end.

(** *** Calls made by threads *)

(** One thread's invocation: its arguments, and the register file it
    finds. *)
Record call := {
  c_rf : regfile;
  c_leaf : Z; c_subleaf : Z;
  c_eax : ptr; c_ebx : ptr; c_ecx : ptr; c_edx : ptr;
}.

Definition call_outputs (c : call) : list ptr :=
  [c_eax c; c_ebx c; c_ecx c; c_edx c].

Definition call_body (tc : toolchain) (c : call) : list write :=
  cpuid_raw_body tc (c_rf c) (c_leaf c) (c_subleaf c)
    (c_eax c) (c_ebx c) (c_ecx c) (c_edx c).

Definition call_run (tc : toolchain) (c : call) (m : memory)
    : option memory :=
  cpuid_raw tc (c_rf c) (c_leaf c) (c_subleaf c)
    (c_eax c) (c_ebx c) (c_ecx c) (c_edx c) m.

(** The calls [cs] started together on memory [m0]: what stays true of
    every configuration the threads can reach.  No object appears or
    disappears; thread [i] only has stores to its own outputs left; and
    finishing thread [i] alone from here would leave in its outputs what
    the call run alone on [m0] leaves there. *)
Definition pool_inv (tc : toolchain) (cs : list call) (m0 : memory)
    (cfg : list (list write) * memory) : Prop :=
  dom cfg.2 = dom m0 ∧
  length cfg.1 = length cs ∧
  ∀ (i : nat) c k, cs !! i = Some c → cfg.1 !! i = Some k →
    (∀ p, p ∈ k.*1 → p ∈ call_outputs c) ∧
    (∀ p, p ∈ call_outputs c →
       apply_writes k cfg.2 !! p = apply_writes (call_body tc c) m0 !! p).

End Cpuid.

(** The number of stores the threads still have to do. *)
Definition remaining (ts : list (list write)) : nat :=
  sum_list (length <$> ts).

(** ** Sample data for the examples *)

(** A processor that answers leaf 0 with highest leaf 0x16 and the vendor
    string "GenuineIntel", leaf 0x80000000 with the highest extended leaf,
    and everything else with zeros. *)
Definition sample_cpuid_data (a c : Z) : regfile :=
  if a =? 0 then
    {| EAX := 0x16; EBX := 0x756e6547; ECX := 0x6c65746e; EDX := 0x49656e69 |}
  else if a =? 0x80000000 then
    {| EAX := 0x80000008; EBX := 0; ECX := 0; EDX := 0 |}
  else
    {| EAX := 0; EBX := 0; ECX := 0; EDX := 0 |}.

(** The intrinsic on that processor, as the vendor documents it: the
    instruction is run with [function_id] in EAX and [subfunction_id] in
    ECX, and [cpuInfo] receives EAX, EBX, ECX and EDX as [int]s. *)
Definition sample_cpuidex (function_id subfunction_id : Z) : list Z :=
  let r := cpuid sample_cpuid_data
             {| EAX := to_uint32 function_id; EBX := 0;
                ECX := to_uint32 subfunction_id; EDX := 0 |} in
  [to_int (EAX r); to_int (EBX r); to_int (ECX r); to_int (EDX r)].

Definition msvc : toolchain :=
  {| _MSC_VER := true; __GNUC__ := false; __clang__ := false |}.
Definition gcc : toolchain :=
  {| _MSC_VER := false; __GNUC__ := true; __clang__ := false |}.
Definition clang_cl : toolchain :=
  {| _MSC_VER := true; __GNUC__ := false; __clang__ := true |}.
Definition other_cc : toolchain :=
  {| _MSC_VER := false; __GNUC__ := false; __clang__ := false |}.

(** Four uninitialised locals at addresses 100..103 and an unrelated
    object at 200. *)
Definition sample_memory : gmap Z cell :=
  <[100 := Uninit]> (<[101 := Uninit]> (<[102 := Uninit]>
    (<[103 := Uninit]> (<[200 := Word 7]> ∅)))).

Definition sample_rf : regfile :=
  {| EAX := 1; EBX := 2; ECX := 3; EDX := 4 |}.

Definition other_rf : regfile :=
  {| EAX := 0xdead; EBX := 0xbeef; ECX := 0xcafe; EDX := 0xf00d |}.

(** Two threads: one asks for leaf 0 into 100..103, the other for leaf
    0x80000000 into 104..107. *)
Definition sample_pool_memory : gmap Z cell :=
  <[104 := Uninit]> (<[105 := Uninit]> (<[106 := Uninit]>
    (<[107 := Uninit]> sample_memory))).

Definition sample_calls : list call :=
  [ {| c_rf := sample_rf; c_leaf := 0; c_subleaf := 0;
       c_eax := 100; c_ebx := 101; c_ecx := 102; c_edx := 103 |};
    {| c_rf := other_rf; c_leaf := 0x80000000; c_subleaf := 0;
       c_eax := 104; c_ebx := 105; c_ecx := 106; c_edx := 107 |} ].

Definition sample_call_basic : call :=
  {| c_rf := sample_rf; c_leaf := 0; c_subleaf := 0;
     c_eax := 100; c_ebx := 101; c_ecx := 102; c_edx := 103 |}.

Definition sample_call_extended : call :=
  {| c_rf := other_rf; c_leaf := 0x80000000; c_subleaf := 0;
     c_eax := 104; c_ebx := 105; c_ecx := 106; c_edx := 107 |}.

(** The four locals of [sample_memory] after some earlier use. *)
Definition sample_memory_used : gmap Z cell :=
  <[100 := Word 1]> (<[101 := Word 2]> (<[102 := Word 3]>
    (<[103 := Word 4]> sample_memory))).

(** ** Proof steps used throughout *)

(** Expose the preprocessor conditions of the function. *)
Ltac unfold_body := unfold cpuid_raw_body.
Tactic Notation "unfold_body" "in" hyp(H) := unfold cpuid_raw_body in H.

(** Expose the stores of the three bodies. *)
Ltac unfold_arms :=
  unfold cpuid_raw_intrinsic, cpuid_raw_asm, cpuid_raw_fallback.

(** Expose the run of the stores. *)
Ltac unfold_run := unfold cpuid_raw.

(** Expose the arguments of a thread's call. *)
Ltac unfold_call := unfold call_body, call_run.

(** Case analysis on the preprocessor conditions, in the order the
    preprocessor evaluates them. *)
Ltac by_branch tc :=
  unfold_body;
  destruct (_MSC_VER tc); [|destruct (__GNUC__ tc || __clang__ tc)].

(** Side conditions on explicit lists of addresses. *)
Ltac distinct :=
  repeat (apply NoDup_cons; split;
          [rewrite ?elem_of_cons, elem_of_nil; lia|]);
  apply NoDup_nil_2.
Ltac all_writable := repeat constructor; by eexists.

(** Membership in an explicit list. *)
Ltac in_list := repeat (apply elem_of_cons; first [by left | right]).

(** * Properties *)

(** ** Conversions between [uint32_t] and [int] *)

Lemma to_uint32_range x : is_uint32 (to_uint32 x).
Proof. unfold is_uint32, to_uint32. apply Z.mod_pos_bound. lia. Qed.

Lemma to_int_range x : is_int (to_int x).
Proof.
  unfold is_int, to_int.
  pose proof (Z.mod_pos_bound (x + 2 ^ 31) (2 ^ 32)). lia.
Qed.

Lemma to_uint32_small x : is_uint32 x → to_uint32 x = x.
Proof. unfold is_uint32, to_uint32. intros. by apply Z.mod_small. Qed.

Lemma to_int_small x : is_int x → to_int x = x.
Proof.
  unfold is_int, to_int. intros. rewrite Z.mod_small; lia.
Qed.

(** [to_int] only moves a value by a multiple of 2^32. *)
Lemma to_int_congr x : ∃ q, to_int x = x + q * 2 ^ 32.
Proof.
  unfold to_int. exists (- ((x + 2 ^ 31) `div` 2 ^ 32)).
  pose proof (Z.div_mod (x + 2 ^ 31) (2 ^ 32)). lia.
Qed.

Lemma to_uint32_to_int x : to_uint32 (to_int x) = to_uint32 x.
Proof.
  destruct (to_int_congr x) as [q ->]. unfold to_uint32.
  by rewrite Z.mod_add by lia.
Qed.

Lemma to_int_to_uint32 x : to_int (to_uint32 x) = to_int x.
Proof.
  unfold to_int, to_uint32.
  rewrite Zplus_mod_idemp_l. done.
Qed.

Lemma testbit_to_uint32 x i :
  0 <= i < 32 → Z.testbit (to_uint32 x) i = Z.testbit x i.
Proof. intros. unfold to_uint32. apply Z.mod_pow2_bits_low. lia. Qed.

Lemma testbit_to_int x i :
  0 <= i < 32 → Z.testbit (to_int x) i = Z.testbit x i.
Proof.
  intros Hi.
  rewrite <- (testbit_to_uint32 (to_int x)) by done.
  rewrite to_uint32_to_int. by apply testbit_to_uint32.
Qed.

(** ** Running stores *)

Lemma store32_writable p v (m : gmap Z cell) :
  is_Some (m !! p) → store32 (p ::= v) m = Some (<[p := Word v]> m).
Proof. intros [c Hc]. unfold store32. simpl. by rewrite Hc. Qed.

Lemma store32_inv w (m m' : gmap Z cell) :
  store32 w m = Some m' → is_Some (m !! w.1) ∧ m' = <[w.1 := Word w.2]> m.
Proof.
  unfold store32. destruct (m !! w.1) eqn:E; [|done].
  intros [= <-]. eauto.
Qed.

Lemma writable_insert (m : gmap Z cell) p c ps :
  writable m ps → writable (<[p := c]> m) ps.
Proof.
  unfold writable. intros Hps. eapply Forall_impl; [exact Hps|].
  intros q Hq. simpl. rewrite lookup_insert. case_decide; eauto.
Qed.

Lemma exec_writable ws (m : gmap Z cell) :
  writable m ws.*1 → exec ws m = Some (apply_writes ws m).
Proof.
  revert m. induction ws as [|[p v] k IH]; intros m Hw; [done|].
  apply Forall_cons in Hw as [Hp Hk]. simpl in *.
  rewrite store32_writable by done.
  apply IH. by apply writable_insert.
Qed.


Lemma apply_writes_other ws (m : gmap Z cell) p :
  p ∉ ws.*1 → apply_writes ws m !! p = m !! p.
Proof.
  revert m. induction ws as [|w k IH]; intros m Hp; [done|].
  simpl in *. apply not_elem_of_cons in Hp as [Hne Hp].
  rewrite IH by done. by rewrite lookup_insert_ne.
Qed.

Lemma apply_writes_written ws (m : gmap Z cell) p :
  p ∈ ws.*1 → ∃ v, (p ::= v) ∈ ws ∧ apply_writes ws m !! p = Some (Word v).
Proof.
  revert m. induction ws as [|[q v] k IH]; intros m Hp; simpl in *.
  - by apply elem_of_nil in Hp.
  - destruct (decide (p ∈ k.*1)) as [Hin|Hout].
    + destruct (IH (<[q := Word v]> m) Hin) as (v' & Hv' & Hl).
      exists v'. split; [by right|done].
    + apply elem_of_cons in Hp as [->|?]; [|done].
      exists v. split; [by left|].
      rewrite apply_writes_other by done. by rewrite lookup_insert_eq.
Qed.

Lemma apply_writes_NoDup ws (m : gmap Z cell) p v :
  NoDup ws.*1 → (p ::= v) ∈ ws → apply_writes ws m !! p = Some (Word v).
Proof.
  revert m. induction ws as [|[q u] k IH]; intros m Hnd Hin; simpl in *.
  - by apply elem_of_nil in Hin.
  - apply NoDup_cons in Hnd as [Hq Hnd].
    apply elem_of_cons in Hin as [[= -> ->]|Hin].
    + rewrite apply_writes_other by done. by rewrite lookup_insert_eq.
    + by apply IH.
Qed.

Lemma apply_writes_dom ws (m : gmap Z cell) :
  writable m ws.*1 → dom (apply_writes ws m) = dom m.
Proof.
  revert m. induction ws as [|w k IH]; intros m Hw; [done|].
  apply Forall_cons in Hw as [Hp Hk]. simpl in *.
  rewrite IH; [|by apply writable_insert].
  rewrite dom_insert_L. apply subseteq_union_1_L, singleton_subseteq_l.
  by apply elem_of_dom.
Qed.

(** The value left at [p] depends only on what [p] held before. *)
Lemma apply_writes_local ws (m1 m2 : gmap Z cell) p :
  m1 !! p = m2 !! p → apply_writes ws m1 !! p = apply_writes ws m2 !! p.
Proof.
  intros Heq. destruct (decide (p ∈ ws.*1)) as [Hin|Hout].
  - revert m1 m2 Heq. induction ws as [|w k IH]; intros m1 m2 Heq; simpl in *.
    + by apply elem_of_nil in Hin.
    + destruct (decide (p ∈ k.*1)) as [Hk|Hk].
      * apply IH; [done|]. rewrite !lookup_insert. by case_decide.
      * rewrite !apply_writes_other by done.
        apply elem_of_cons in Hin as [->|?]; [|done].
        by rewrite !lookup_insert_eq.
  - by rewrite !apply_writes_other.
Qed.

Lemma apply_writes_writable ws (m : gmap Z cell) ps :
  writable m ps → writable (apply_writes ws m) ps.
Proof.
  revert m. induction ws as [|w k IH]; intros m Hps; [done|].
  simpl. by apply IH, writable_insert.
Qed.

(** ** The step relation *)

Lemma nsteps_step_length n ws ws' (m m' : gmap Z cell) :
  nsteps step n (ws, m) (ws', m') → length ws = (n + length ws')%nat.
Proof.
  revert ws m. induction n as [|n IH]; intros ws m Hn.
  - by inversion Hn.
  - inversion Hn as [|? ? [k m1] ? Hstep Hrest]; subst.
    inversion Hstep; subst. simpl. by rewrite (IH _ _ Hrest).
Qed.

Lemma exec_nsteps ws (m m' : gmap Z cell) :
  exec ws m = Some m' → nsteps step (length ws) (ws, m) ([], m').
Proof.
  revert m. induction ws as [|w k IH]; intros m; simpl.
  - intros [= <-]. constructor.
  - destruct (store32 w m) as [m1|] eqn:E; [|done].
    intros Hk. eapply nsteps_l; [by constructor|by apply IH].
Qed.

(** ** Thread pools *)

Lemma finished_or_next (ts : list (list write)) :
  finished ts ∨ ∃ (i : nat) w k, ts !! i = Some (w :: k).
Proof.
  induction ts as [|[|w k] ts IH].
  - left. constructor.
  - destruct IH as [Hfin|(i & w & k & Hi)].
    + left. by constructor.
    + right. by exists (S i), w, k.
  - right. by exists 0%nat, w, k.
Qed.

Lemma remaining_insert (ts : list (list write)) (i : nat) w k :
  ts !! i = Some (w :: k) → remaining ts = S (remaining (<[i := k]> ts)).
Proof.
  unfold remaining. revert i.
  induction ts as [|t ts IH]; intros [|i] Hi; simplify_eq/=; [done|].
  rewrite (IH i Hi). lia.
Qed.

Lemma pool_step_remaining ts ts' (m m' : gmap Z cell) :
  pool_step (ts, m) (ts', m') → remaining ts = S (remaining ts').
Proof.
  inversion 1 as [i ? k k' ? ? Hi Hstep]; subst.
  inversion Hstep as [w ? ? ? Hst]; subst. by apply (remaining_insert _ _ w).
Qed.

(** ** The call *)

Section Properties.

Variable cpuid_data : Z → Z → regfile.
Variable __cpuidex : Z → Z → list Z.

Local Abbreviation cpuid := (cpuid cpuid_data).
Local Abbreviation cpuid_raw_intrinsic := (cpuid_raw_intrinsic __cpuidex).
Local Abbreviation cpuid_raw_asm := (cpuid_raw_asm cpuid_data).
Local Abbreviation cpuid_raw_body := (cpuid_raw_body cpuid_data __cpuidex).
Local Abbreviation cpuid_raw := (cpuid_raw cpuid_data __cpuidex).
Local Abbreviation spec_body := (spec_body cpuid_data __cpuidex).
Local Abbreviation call_body := (call_body cpuid_data __cpuidex).
Local Abbreviation call_run := (call_run cpuid_data __cpuidex).
Local Abbreviation pool_inv := (pool_inv cpuid_data __cpuidex).

Implicit Types (tc : toolchain) (rf : regfile) (m : gmap Z cell).
Implicit Types (leaf subleaf eax ebx ecx edx : Z).

(** Every body stores through each of the four pointers, once. *)
Lemma body_targets tc rf leaf subleaf eax ebx ecx edx :
  (cpuid_raw_body tc rf leaf subleaf eax ebx ecx edx).*1
    ≡ₚ [eax; ebx; ecx; edx].
Proof.
  by_branch tc; simpl; [done|done|].
  by rewrite (reverse_Permutation [eax; ebx; ecx; edx]).
Qed.

Lemma body_length tc rf leaf subleaf eax ebx ecx edx :
  length (cpuid_raw_body tc rf leaf subleaf eax ebx ecx edx) = 4%nat.
Proof. by by_branch tc. Qed.

(** Every value stored fits [uint32_t]. *)
Lemma body_values tc rf leaf subleaf eax ebx ecx edx :
  Forall (λ w, is_uint32 w.2)
    (cpuid_raw_body tc rf leaf subleaf eax ebx ecx edx).
Proof.
  by_branch tc; repeat constructor; simpl;
    try apply to_uint32_range; unfold is_uint32; lia.
Qed.

Lemma body_writable tc rf leaf subleaf eax ebx ecx edx m :
  writable m [eax; ebx; ecx; edx] →
  writable m (cpuid_raw_body tc rf leaf subleaf eax ebx ecx edx).*1.
Proof. unfold writable. by rewrite body_targets. Qed.

(** With four valid pointers the call succeeds, and its result is what
    its stores leave. *)
Lemma cpuid_raw_writable tc rf leaf subleaf eax ebx ecx edx m :
  writable m [eax; ebx; ecx; edx] →
  cpuid_raw tc rf leaf subleaf eax ebx ecx edx m
  = Some (apply_writes (cpuid_raw_body tc rf leaf subleaf eax ebx ecx edx) m).
Proof. intros Hw. by apply exec_writable, body_writable. Qed.

(** Each output location ends up holding one of the values stored
    through its pointer. *)
Lemma cpuid_raw_outputs tc rf leaf subleaf eax ebx ecx edx m p :
  p ∈ [eax; ebx; ecx; edx] →
  ∃ v, (p ::= v) ∈ cpuid_raw_body tc rf leaf subleaf eax ebx ecx edx ∧
       apply_writes (cpuid_raw_body tc rf leaf subleaf eax ebx ecx edx) m !! p
       = Some (Word v).
Proof. intros Hp. apply apply_writes_written. by rewrite body_targets. Qed.

(** C1: in the fallback configuration (none of the three macros defined)
    the call succeeds for every [leaf] and [subleaf] and leaves zero in
    all four output locations. *)
Theorem fallback_writes_zero tc rf leaf subleaf eax ebx ecx edx m :
  _MSC_VER tc = false → __GNUC__ tc = false → __clang__ tc = false →
  writable m [eax; ebx; ecx; edx] →
  ∃ m', cpuid_raw tc rf leaf subleaf eax ebx ecx edx m = Some m' ∧
        m' !! eax = Some (Word 0) ∧ m' !! ebx = Some (Word 0) ∧
        m' !! ecx = Some (Word 0) ∧ m' !! edx = Some (Word 0).
Proof.
  intros Hmsc Hgnu Hclang Hw. eexists. split; [by apply cpuid_raw_writable|].
  assert (∀ p, p ∈ [eax; ebx; ecx; edx] →
    apply_writes (cpuid_raw_body tc rf leaf subleaf eax ebx ecx edx) m !! p
    = Some (Word 0)) as Hzero.
  { intros p Hp.
    destruct (cpuid_raw_outputs tc rf leaf subleaf eax ebx ecx edx m p Hp)
      as (v & Hv & ->).
    unfold_body in Hv.
    rewrite Hmsc, Hgnu, Hclang in Hv. simpl in Hv.
    unfold cpuid_raw_fallback in Hv.
    repeat (apply elem_of_cons in Hv as [[= _ ->]|Hv]; [done|]).
    by apply elem_of_nil in Hv. }
  repeat split; apply Hzero; in_list.
Qed.

(** C2: whatever the toolchain and the inputs, a call given four valid
    pointers stores through each of them and returns normally, and every
    output location then holds a 32-bit value, also when it was
    uninitialised before. *)
Theorem outputs_always_written tc rf leaf subleaf eax ebx ecx edx m :
  writable m [eax; ebx; ecx; edx] →
  (cpuid_raw_body tc rf leaf subleaf eax ebx ecx edx).*1
    ≡ₚ [eax; ebx; ecx; edx] ∧
  ∃ m', cpuid_raw tc rf leaf subleaf eax ebx ecx edx m = Some m' ∧
        initialised m' eax ∧ initialised m' ebx ∧
        initialised m' ecx ∧ initialised m' edx.
Proof.
  intros Hw. split; [apply body_targets|].
  eexists. split; [by apply cpuid_raw_writable|].
  assert (∀ p, p ∈ [eax; ebx; ecx; edx] →
    initialised
      (apply_writes (cpuid_raw_body tc rf leaf subleaf eax ebx ecx edx) m) p)
    as Hinit.
  { intros p Hp.
    destruct (cpuid_raw_outputs tc rf leaf subleaf eax ebx ecx edx m p Hp)
      as (v & Hv & Hl).
    exists v. split; [done|].
    pose proof (body_values tc rf leaf subleaf eax ebx ecx edx) as Hvals.
    rewrite Forall_forall in Hvals. by apply (Hvals (p ::= v)). }
  repeat split; apply Hinit; in_list.
Qed.

(** C3: the body is chosen by the preprocessor conditions alone, tried in
    order: the intrinsic whenever [_MSC_VER] is defined (whatever the
    other two macros), else inline assembly when [__GNUC__] or
    [__clang__] is defined, else the zero fallback.  This is the
    three-way dispatch of the specification, with "provides the
    intrinsic" read as [_MSC_VER] and "supports inline assembly" as
    [__GNUC__ || __clang__]; there is no fourth branch, and the choice
    mentions none of the run-time arguments. *)
Theorem dispatch_three_way :
  (∀ g c rf leaf subleaf eax ebx ecx edx,
     cpuid_raw_body {| _MSC_VER := true; __GNUC__ := g; __clang__ := c |}
       rf leaf subleaf eax ebx ecx edx
     = cpuid_raw_intrinsic leaf subleaf eax ebx ecx edx) ∧
  (∀ c rf leaf subleaf eax ebx ecx edx,
     cpuid_raw_body {| _MSC_VER := false; __GNUC__ := true; __clang__ := c |}
       rf leaf subleaf eax ebx ecx edx
     = cpuid_raw_asm rf leaf subleaf eax ebx ecx edx) ∧
  (∀ g rf leaf subleaf eax ebx ecx edx,
     cpuid_raw_body {| _MSC_VER := false; __GNUC__ := g; __clang__ := true |}
       rf leaf subleaf eax ebx ecx edx
     = cpuid_raw_asm rf leaf subleaf eax ebx ecx edx) ∧
  (∀ rf leaf subleaf eax ebx ecx edx,
     cpuid_raw_body
       {| _MSC_VER := false; __GNUC__ := false; __clang__ := false |}
       rf leaf subleaf eax ebx ecx edx
     = cpuid_raw_fallback eax ebx ecx edx) ∧
  (∀ tc rf leaf subleaf eax ebx ecx edx,
     cpuid_raw_body tc rf leaf subleaf eax ebx ecx edx
     = spec_body (spec_dispatch (_MSC_VER tc) (__GNUC__ tc || __clang__ tc))
         rf leaf subleaf eax ebx ecx edx) ∧
  (∀ b : branch, b = Intrinsic ∨ b = InlineAsm ∨ b = Fallback).
Proof.
  split_and!; try done.
  - intros [] *; done.
  - intros tc *. by by_branch tc.
  - intros []; auto.
Qed.

(** C4: with [_MSC_VER] defined the intrinsic is called once, with [leaf]
    and [subleaf] converted to its [int] parameters, and the four
    elements it leaves in the array go, in order, to [*eax], [*ebx],
    [*ecx] and [*edx] (converted to [uint32_t]). *)
Theorem intrinsic_unpacks_in_order tc rf leaf subleaf eax ebx ecx edx m
    r0 r1 r2 r3 :
  _MSC_VER tc = true →
  __cpuidex (to_int leaf) (to_int subleaf) = [r0; r1; r2; r3] →
  NoDup [eax; ebx; ecx; edx] →
  writable m [eax; ebx; ecx; edx] →
  cpuid_raw_body tc rf leaf subleaf eax ebx ecx edx
  = [ eax ::= to_uint32 r0; ebx ::= to_uint32 r1;
      ecx ::= to_uint32 r2; edx ::= to_uint32 r3 ] ∧
  ∃ m', cpuid_raw tc rf leaf subleaf eax ebx ecx edx m = Some m' ∧
        m' !! eax = Some (Word (to_uint32 r0)) ∧
        m' !! ebx = Some (Word (to_uint32 r1)) ∧
        m' !! ecx = Some (Word (to_uint32 r2)) ∧
        m' !! edx = Some (Word (to_uint32 r3)).
Proof.
  intros Hmsc Hregs Hnd Hw.
  assert (cpuid_raw_body tc rf leaf subleaf eax ebx ecx edx
          = [ eax ::= to_uint32 r0; ebx ::= to_uint32 r1;
              ecx ::= to_uint32 r2; edx ::= to_uint32 r3 ]) as Hbody.
  { unfold_body. rewrite Hmsc. unfold_arms. by rewrite Hregs. }
  split; [done|].
  eexists. split; [by apply cpuid_raw_writable|].
  rewrite Hbody.
  repeat split; (apply apply_writes_NoDup; [done|in_list]).
Qed.

(** C5: with [_MSC_VER] undefined and [__GNUC__] or [__clang__] defined,
    the [cpuid] instruction is executed once with [leaf] in EAX and
    [subleaf] in ECX, and EAX, EBX, ECX and EDX as the instruction leaves
    them go to [*eax], [*ebx], [*ecx] and [*edx]: the outputs are the
    four registers the processor reports for the pair ([leaf],
    [subleaf]), whatever the other registers held. *)
Theorem asm_binds_registers tc rf leaf subleaf eax ebx ecx edx m :
  _MSC_VER tc = false →
  __GNUC__ tc || __clang__ tc = true →
  NoDup [eax; ebx; ecx; edx] →
  writable m [eax; ebx; ecx; edx] →
  let r := cpuid {| EAX := leaf; EBX := EBX rf;
                    ECX := subleaf; EDX := EDX rf |} in
  let d := cpuid_data leaf subleaf in
  cpuid_raw_body tc rf leaf subleaf eax ebx ecx edx
  = [ eax ::= EAX r; ebx ::= EBX r; ecx ::= ECX r; edx ::= EDX r ] ∧
  ∃ m', cpuid_raw tc rf leaf subleaf eax ebx ecx edx m = Some m' ∧
        m' !! eax = Some (Word (to_uint32 (EAX d))) ∧
        m' !! ebx = Some (Word (to_uint32 (EBX d))) ∧
        m' !! ecx = Some (Word (to_uint32 (ECX d))) ∧
        m' !! edx = Some (Word (to_uint32 (EDX d))).
Proof.
  intros Hmsc Hgnu Hnd Hw r d.
  assert (cpuid_raw_body tc rf leaf subleaf eax ebx ecx edx
          = [ eax ::= EAX r; ebx ::= EBX r; ecx ::= ECX r; edx ::= EDX r ])
    as Hbody.
  { unfold_body. by rewrite Hmsc, Hgnu. }
  split; [done|].
  eexists. split; [by apply cpuid_raw_writable|].
  rewrite Hbody.
  repeat split; (apply apply_writes_NoDup; [done|in_list]).
Qed.

Lemma body_NoDup tc rf leaf subleaf eax ebx ecx edx :
  NoDup [eax; ebx; ecx; edx] →
  NoDup (cpuid_raw_body tc rf leaf subleaf eax ebx ecx edx).*1.
Proof. by rewrite body_targets. Qed.

(** The values a call stores are a function of the toolchain and the
    selectors: the pointers and the registers on entry play no part. *)
Lemma body_values_fixed tc rf1 rf2 leaf subleaf a1 b1 c1 d1 a2 b2 c2 d2 :
  (cpuid_raw_body tc rf1 leaf subleaf a1 b1 c1 d1).*2
  = (cpuid_raw_body tc rf2 leaf subleaf a2 b2 c2 d2).*2.
Proof. by by_branch tc. Qed.

(** C6: two invocations with the same [leaf] and [subleaf] on the same
    processor, the second one run on the memory the first one left (with
    the same or with other output pointers, and whatever the registers
    held on entry), store the same values and leave them in the
    corresponding output locations. *)
Theorem two_runs_agree tc rf1 rf2 leaf subleaf a1 b1 c1 d1 a2 b2 c2 d2 m :
  NoDup [a1; b1; c1; d1] → NoDup [a2; b2; c2; d2] →
  writable m [a1; b1; c1; d1] → writable m [a2; b2; c2; d2] →
  (cpuid_raw_body tc rf1 leaf subleaf a1 b1 c1 d1).*2
  = (cpuid_raw_body tc rf2 leaf subleaf a2 b2 c2 d2).*2 ∧
  ∃ m1 m2,
    cpuid_raw tc rf1 leaf subleaf a1 b1 c1 d1 m = Some m1 ∧
    cpuid_raw tc rf2 leaf subleaf a2 b2 c2 d2 m1 = Some m2 ∧
    m2 !! a2 = m1 !! a1 ∧ m2 !! b2 = m1 !! b1 ∧
    m2 !! c2 = m1 !! c1 ∧ m2 !! d2 = m1 !! d1.
Proof.
  intros Hnd1 Hnd2 Hw1 Hw2. split; [apply body_values_fixed|].
  eexists _, _. split; [by apply cpuid_raw_writable|].
  split; [by apply cpuid_raw_writable, apply_writes_writable|].
  pose proof (body_NoDup tc rf1 leaf subleaf _ _ _ _ Hnd1) as Hb1.
  pose proof (body_NoDup tc rf2 leaf subleaf _ _ _ _ Hnd2) as Hb2.
  revert Hb1 Hb2. by_branch tc; intros Hb1 Hb2; unfold_arms;
    repeat split;
    (etrans; [apply apply_writes_NoDup; [exact Hb2|in_list]|];
     symmetry; apply apply_writes_NoDup; [exact Hb1|in_list]).
Qed.

(** C7: a call is a straight line of four stores.  From any memory and
    for any inputs no execution takes more than four steps, and with four
    valid pointers the execution runs to completion in exactly four. *)
Theorem cpuid_raw_terminates tc rf leaf subleaf eax ebx ecx edx m :
  (∀ n cfg,
     nsteps step n (cpuid_raw_body tc rf leaf subleaf eax ebx ecx edx, m) cfg →
     (n ≤ 4)%nat) ∧
  (writable m [eax; ebx; ecx; edx] →
   ∃ m', nsteps step 4
           (cpuid_raw_body tc rf leaf subleaf eax ebx ecx edx, m) ([], m') ∧
         cpuid_raw tc rf leaf subleaf eax ebx ecx edx m = Some m').
Proof.
  split.
  - intros n [ws' m'] Hn. apply nsteps_step_length in Hn.
    rewrite body_length in Hn. lia.
  - intros Hw. eexists. split; [|by apply cpuid_raw_writable].
    rewrite <- (body_length tc rf leaf subleaf eax ebx ecx edx).
    by apply exec_nsteps, cpuid_raw_writable.
Qed.

(** C8: a call changes nothing but the four output locations: the set of
    live objects is the same afterwards (nothing allocated, nothing
    freed), and every other object holds what it held before. *)
Theorem cpuid_raw_frame tc rf leaf subleaf eax ebx ecx edx m :
  writable m [eax; ebx; ecx; edx] →
  ∃ m', cpuid_raw tc rf leaf subleaf eax ebx ecx edx m = Some m' ∧
        dom m' = dom m ∧
        ∀ q, q ∉ [eax; ebx; ecx; edx] → m' !! q = m !! q.
Proof.
  intros Hw. eexists. split; [by apply cpuid_raw_writable|]. split.
  - by apply apply_writes_dom, body_writable.
  - intros q Hq. apply apply_writes_other. by rewrite body_targets.
Qed.

(** C10: on the intrinsic path the values travel through [int]s and keep
    their 32-bit patterns.  The [int] arguments the intrinsic receives are
    congruent to [leaf] and [subleaf] modulo 2^32 and have the same low 32
    bits; each output is the array element reduced modulo 2^32, has the
    element's low 32 bits, and converts back to the element. *)
Theorem intrinsic_int_roundtrip tc rf leaf subleaf eax ebx ecx edx
    r0 r1 r2 r3 :
  _MSC_VER tc = true →
  is_uint32 leaf → is_uint32 subleaf →
  __cpuidex (to_int leaf) (to_int subleaf) = [r0; r1; r2; r3] →
  Forall is_int [r0; r1; r2; r3] →
  Forall (λ s, is_int (to_int s) ∧ to_int s `mod` 2 ^ 32 = s ∧
               ∀ i, 0 <= i < 32 → Z.testbit (to_int s) i = Z.testbit s i)
    [leaf; subleaf] ∧
  cpuid_raw_body tc rf leaf subleaf eax ebx ecx edx
  = [ eax ::= r0 `mod` 2 ^ 32; ebx ::= r1 `mod` 2 ^ 32;
      ecx ::= r2 `mod` 2 ^ 32; edx ::= r3 `mod` 2 ^ 32 ] ∧
  Forall (λ r, is_uint32 (r `mod` 2 ^ 32) ∧ to_int (r `mod` 2 ^ 32) = r ∧
               ∀ i, 0 <= i < 32 →
                    Z.testbit (r `mod` 2 ^ 32) i = Z.testbit r i)
    [r0; r1; r2; r3].
Proof.
  intros Hmsc Hleaf Hsub Hregs Hints. split_and!.
  - repeat constructor; try apply to_int_range; try by apply testbit_to_int.
    + rewrite <- (to_uint32_small leaf) at 2 by done.
      apply to_uint32_to_int.
    + rewrite <- (to_uint32_small subleaf) at 2 by done.
      apply to_uint32_to_int.
  - unfold_body. rewrite Hmsc. unfold_arms. by rewrite Hregs.
  - eapply Forall_impl; [exact Hints|]. intros r Hr. simpl. split_and!.
    + apply to_uint32_range.
    + change (to_int (to_uint32 r) = r).
      rewrite to_int_to_uint32. by apply to_int_small.
    + intros i Hi. by apply testbit_to_uint32.
Qed.

(** *** Concurrent calls *)

Section Pool.

Variable tc : toolchain.
Variable cs : list call.
Variable m0 : gmap Z cell.

Hypothesis outputs_valid : ∀ c, c ∈ cs → writable m0 (call_outputs c).
Hypothesis outputs_private : ∀ (i j : nat) ci cj,
  cs !! i = Some ci → cs !! j = Some cj → i ≠ j →
  call_outputs ci ## call_outputs cj.

Lemma call_body_targets c p :
  p ∈ (call_body tc c).*1 ↔ p ∈ call_outputs c.
Proof. unfold_call. by rewrite body_targets. Qed.

Lemma pool_inv_init : pool_inv tc cs m0 (call_body tc <$> cs, m0).
Proof.
  split_and!; simpl; [done|by rewrite length_fmap|].
  intros i c k Hc Hk. rewrite list_lookup_fmap, Hc in Hk.
  injection Hk as <-. split; [|done].
  intros p. by rewrite call_body_targets.
Qed.

Lemma pool_inv_step cfg cfg' :
  pool_inv tc cs m0 cfg → pool_step cfg cfg' → pool_inv tc cs m0 cfg'.
Proof.
  intros (Hdom & Hlen & Hthr) Hstep.
  destruct Hstep as [i0 ts k0 k' m m' Hi0 Hst]. simpl in *.
  inversion Hst as [w ? ? ? Hstore]; subst.
  apply store32_inv in Hstore as [Hvalid ->].
  destruct (lookup_lt_is_Some_2 cs i0) as [c0 Hc0].
  { rewrite <- Hlen. by eapply lookup_lt_Some. }
  destruct (Hthr i0 c0 _ Hc0 Hi0) as [Hown0 Hres0].
  split_and!; simpl.
  - rewrite dom_insert_L, <- Hdom.
    apply subseteq_union_1_L, singleton_subseteq_l. by apply elem_of_dom.
  - by rewrite length_insert.
  - intros i c k Hc Hk. destruct (decide (i = i0)) as [->|Hne].
    + rewrite list_lookup_insert_eq in Hk by by eapply lookup_lt_Some.
      injection Hk as <-. simplify_eq. split.
      * intros p Hp. apply Hown0. simpl. by right.
      * intros p Hp. by rewrite <- (Hres0 p Hp).
    + rewrite list_lookup_insert_ne in Hk by done.
      destruct (Hthr i c k Hc Hk) as [Hown Hres]. split; [done|].
      intros p Hp. rewrite <- (Hres p Hp). apply apply_writes_local.
      apply lookup_insert_ne. intros <-.
      apply (outputs_private i i0 c c0 Hc Hc0 Hne w.1 Hp).
      apply Hown0. simpl. by left.
Qed.

Lemma pool_inv_steps cfg cfg' :
  pool_inv tc cs m0 cfg → rtc pool_step cfg cfg' → pool_inv tc cs m0 cfg'.
Proof.
  intros Hinv Hrtc. induction Hrtc as [|cfg1 cfg2 cfg3 Hstep _ IH]; [done|].
  apply IH. by eapply pool_inv_step.
Qed.

Lemma pool_inv_rtc cfg :
  rtc pool_step (call_body tc <$> cs, m0) cfg → pool_inv tc cs m0 cfg.
Proof. apply pool_inv_steps, pool_inv_init. Qed.

(** A thread with a store left can always perform it. *)
Lemma pool_inv_progress ts m :
  pool_inv tc cs m0 (ts, m) → finished ts ∨ ∃ cfg, pool_step (ts, m) cfg.
Proof.
  intros (Hdom & Hlen & Hthr). simpl in *.
  destruct (finished_or_next ts) as [?|(i & [p v] & k & Hi)]; [by left|right].
  destruct (lookup_lt_is_Some_2 cs i) as [c Hc].
  { rewrite <- Hlen. by eapply lookup_lt_Some. }
  destruct (Hthr i c _ Hc Hi) as [Hown _].
  assert (is_Some (m !! p)) as Hp.
  { apply elem_of_dom. rewrite Hdom. apply elem_of_dom.
    assert (p ∈ call_outputs c) as Hout by (apply Hown; simpl; by left).
    pose proof (outputs_valid c (list_elem_of_lookup_2 _ _ _ Hc)) as Hw.
    unfold writable in Hw. rewrite Forall_forall in Hw. by apply Hw. }
  eexists. econstructor; [exact Hi|]. constructor.
  by apply store32_writable.
Qed.

Lemma pool_inv_completes n ts m :
  remaining ts = n → pool_inv tc cs m0 (ts, m) →
  ∃ ts' m', rtc pool_step (ts, m) (ts', m') ∧ finished ts'.
Proof.
  revert ts m. induction n as [|n IH]; intros ts m Hn Hinv.
  - destruct (pool_inv_progress ts m Hinv) as [?|[[ts' m'] Hstep]].
    + by exists ts, m.
    + apply pool_step_remaining in Hstep. lia.
  - destruct (pool_inv_progress ts m Hinv) as [?|[[ts' m'] Hstep]].
    + by exists ts, m.
    + destruct (IH ts' m') as (ts'' & m'' & Hrtc & Hfin).
      * apply pool_step_remaining in Hstep. lia.
      * by eapply pool_inv_step.
      * exists ts'', m''. split; [|done]. by eapply rtc_l.
Qed.

Lemma pool_inv_finished ts m c :
  pool_inv tc cs m0 (ts, m) → finished ts → c ∈ cs →
  ∃ mc, call_run tc c m0 = Some mc ∧
        ∀ p, p ∈ call_outputs c → m !! p = mc !! p.
Proof.
  intros (Hdom & Hlen & Hthr) Hfin Hc. simpl in *.
  apply list_elem_of_lookup_1 in Hc as Hi. destruct Hi as [i Hi].
  destruct (lookup_lt_is_Some_2 ts i) as [k Hk].
  { rewrite Hlen. by eapply lookup_lt_Some. }
  unfold finished in Hfin. rewrite Forall_lookup in Hfin.
  pose proof (Hfin i k Hk) as ->.
  destruct (Hthr i c [] Hi Hk) as [_ Hres].
  eexists. split; [by apply cpuid_raw_writable, outputs_valid|].
  intros p Hp. exact (Hres p Hp).
Qed.

End Pool.

(** C9: calls made by any number of threads at once, with arbitrary
    selectors, each thread having valid output locations that no other
    thread uses, and the scheduler interleaving the threads' stores in any
    order.  The threads can always be run to completion, no schedule
    faults or blocks before all of them have finished, and whenever all
    have finished every call's output locations hold exactly what that
    call leaves there when run alone on the initial memory. *)
Theorem concurrent_calls_independent tc (cs : list call) m :
  (∀ c, c ∈ cs → writable m (call_outputs c)) →
  (∀ (i j : nat) ci cj, cs !! i = Some ci → cs !! j = Some cj → i ≠ j →
     call_outputs ci ## call_outputs cj) →
  (∃ ts m', rtc pool_step (call_body tc <$> cs, m) (ts, m') ∧ finished ts) ∧
  (∀ ts m', rtc pool_step (call_body tc <$> cs, m) (ts, m') →
     finished ts ∨ ∃ cfg, pool_step (ts, m') cfg) ∧
  (∀ ts m', rtc pool_step (call_body tc <$> cs, m) (ts, m') → finished ts →
     ∀ c, c ∈ cs →
       ∃ mc, call_run tc c m = Some mc ∧
             ∀ p, p ∈ call_outputs c → m' !! p = mc !! p).
Proof.
  intros Hvalid Hprivate. split_and!.
  - eapply pool_inv_completes; [done..|]. by apply pool_inv_init.
  - intros ts m' Hrtc. eapply pool_inv_progress; [done|].
    by apply pool_inv_rtc.
  - intros ts m' Hrtc Hfin c Hc.
    eapply pool_inv_finished; [done| |done..]. by apply pool_inv_rtc.
Qed.

End Properties.

(** * The theorems on the sample processor *)

(** Leaf 0 on a compiler that defines none of the macros: four zeros. *)
Lemma fallback_writes_zero_witness :
  ∃ m', cpuid_raw sample_cpuid_data sample_cpuidex other_cc sample_rf
          0 0 100 101 102 103 sample_memory = Some m' ∧
        m' !! 100 = Some (Word 0) ∧ m' !! 101 = Some (Word 0) ∧
        m' !! 102 = Some (Word 0) ∧ m' !! 103 = Some (Word 0).
Proof.
  apply (fallback_writes_zero sample_cpuid_data sample_cpuidex other_cc
           sample_rf 0 0 100 101 102 103 sample_memory);
    [reflexivity..|all_writable].
Defined.

(** Four uninitialised locals are all initialised by the call. *)
Lemma outputs_always_written_witness :
  ∃ m', cpuid_raw sample_cpuid_data sample_cpuidex gcc sample_rf
          0 0 100 101 102 103 sample_memory = Some m' ∧
        initialised m' 100 ∧ initialised m' 101 ∧
        initialised m' 102 ∧ initialised m' 103.
Proof.
  apply (outputs_always_written sample_cpuid_data sample_cpuidex gcc
           sample_rf 0 0 100 101 102 103 sample_memory).
  all_writable.
Defined.

(** Leaf 0x80000000 through the intrinsic (clang-cl defines [_MSC_VER] and
    [__clang__]): the array holds the negative [int] -2147483640, the first
    output its pattern 0x80000008. *)
Lemma intrinsic_unpacks_in_order_witness :
  ∃ m', cpuid_raw sample_cpuid_data sample_cpuidex clang_cl sample_rf
          0x80000000 0 100 101 102 103 sample_memory = Some m' ∧
        m' !! 100 = Some (Word (to_uint32 (-2147483640))) ∧
        m' !! 101 = Some (Word (to_uint32 0)) ∧
        m' !! 102 = Some (Word (to_uint32 0)) ∧
        m' !! 103 = Some (Word (to_uint32 0)).
Proof.
  apply (intrinsic_unpacks_in_order sample_cpuid_data sample_cpuidex clang_cl
           sample_rf 0x80000000 0 100 101 102 103 sample_memory
           (-2147483640) 0 0 0);
    [reflexivity|reflexivity|distinct|all_writable].
Defined.

(** Leaf 0 through inline assembly: highest leaf, then "Genu", "ntel", "ineI". *)
Lemma asm_binds_registers_witness :
  ∃ m', cpuid_raw sample_cpuid_data sample_cpuidex gcc sample_rf
          0 0 100 101 102 103 sample_memory = Some m' ∧
        m' !! 100 = Some (Word (to_uint32 0x16)) ∧
        m' !! 101 = Some (Word (to_uint32 0x756e6547)) ∧
        m' !! 102 = Some (Word (to_uint32 0x6c65746e)) ∧
        m' !! 103 = Some (Word (to_uint32 0x49656e69)).
Proof.
  apply (asm_binds_registers sample_cpuid_data sample_cpuidex gcc
           sample_rf 0 0 100 101 102 103 sample_memory);
    [reflexivity|reflexivity|distinct|all_writable].
Defined.

(** Leaf 0 asked twice into the same locals, with other registers on entry. *)
Lemma two_runs_agree_witness :
  ∃ m1 m2,
    cpuid_raw sample_cpuid_data sample_cpuidex gcc sample_rf
      0 0 100 101 102 103 sample_memory = Some m1 ∧
    cpuid_raw sample_cpuid_data sample_cpuidex gcc other_rf
      0 0 100 101 102 103 m1 = Some m2 ∧
    m2 !! 100 = m1 !! 100 ∧ m2 !! 101 = m1 !! 101 ∧
    m2 !! 102 = m1 !! 102 ∧ m2 !! 103 = m1 !! 103.
Proof.
  apply (two_runs_agree sample_cpuid_data sample_cpuidex gcc
           sample_rf other_rf 0 0 100 101 102 103 100 101 102 103
           sample_memory);
    [distinct|distinct|all_writable|all_writable].
Defined.

(** One step is within the bound, and four steps finish the call. *)
Lemma cpuid_raw_terminates_witness :
  (1 ≤ 4)%nat ∧
  ∃ m', nsteps step 4
          (cpuid_raw_body sample_cpuid_data sample_cpuidex msvc sample_rf
             0 0 100 101 102 103, sample_memory) ([], m') ∧
        cpuid_raw sample_cpuid_data sample_cpuidex msvc sample_rf
          0 0 100 101 102 103 sample_memory = Some m'.
Proof.
  destruct (cpuid_raw_terminates sample_cpuid_data sample_cpuidex msvc
              sample_rf 0 0 100 101 102 103 sample_memory)
    as [Hbound Hrun].
  split.
  - eapply Hbound. apply nsteps_once. constructor. reflexivity.
  - apply Hrun. all_writable.
Defined.

(** The object at 200 and the set of objects survive the call. *)
Lemma cpuid_raw_frame_witness :
  ∃ m', cpuid_raw sample_cpuid_data sample_cpuidex gcc sample_rf
          0 0 100 101 102 103 sample_memory = Some m' ∧
        dom m' = dom sample_memory ∧
        ∀ q, q ∉ [100; 101; 102; 103] → m' !! q = sample_memory !! q.
Proof.
  apply (cpuid_raw_frame sample_cpuid_data sample_cpuidex gcc sample_rf
           0 0 100 101 102 103 sample_memory).
  all_writable.
Defined.

(** Two threads with outputs 100..103 and 104..107. *)
Lemma concurrent_calls_independent_witness :
  ∃ ts m',
    rtc pool_step
      (call_body sample_cpuid_data sample_cpuidex gcc <$> sample_calls,
       sample_pool_memory) (ts, m') ∧
    finished ts ∧
    ∀ c, c ∈ sample_calls →
      ∃ mc, call_run sample_cpuid_data sample_cpuidex gcc c
              sample_pool_memory = Some mc ∧
            ∀ p, p ∈ call_outputs c → m' !! p = mc !! p.
Proof.
  destruct (concurrent_calls_independent sample_cpuid_data sample_cpuidex gcc
              sample_calls sample_pool_memory)
    as ((ts & m' & Hrtc & Hfin) & _ & Hsame).
  - intros c Hc. unfold sample_calls in Hc.
    repeat (apply elem_of_cons in Hc as [->|Hc]); [all_writable..|].
    by apply elem_of_nil in Hc.
  - intros [|[|i]] [|[|j]] ci cj Hi Hj Hne; simplify_eq/=;
      intros p Hp Hq; unfold call_outputs in Hp, Hq; simpl in Hp, Hq;
      rewrite !elem_of_cons, elem_of_nil in Hp;
      rewrite !elem_of_cons, elem_of_nil in Hq; lia.
  - exists ts, m'. split_and!; [done..|]. by apply (Hsame ts m').
Defined.

(** The stores for leaf 0x80000000, read off the [int] array. *)
Lemma intrinsic_int_roundtrip_witness :
  cpuid_raw_body sample_cpuid_data sample_cpuidex msvc sample_rf
    0x80000000 0 100 101 102 103
  = [ 100 ::= (-2147483640) `mod` 2 ^ 32; 101 ::= 0 `mod` 2 ^ 32;
      102 ::= 0 `mod` 2 ^ 32; 103 ::= 0 `mod` 2 ^ 32 ].
Proof.
  apply (intrinsic_int_roundtrip sample_cpuid_data sample_cpuidex msvc
           sample_rf 0x80000000 0 100 101 102 103 (-2147483640) 0 0 0);
    [reflexivity| | |reflexivity|];
    repeat constructor; unfold is_uint32, is_int; lia.
Defined.

(** * Further properties of the call *)

(** ** More on running stores *)

Lemma to_uint32_idemp x : to_uint32 (to_uint32 x) = to_uint32 x.
Proof. apply to_uint32_small, to_uint32_range. Qed.

(** A location that is stored to forgets what it held. *)
Lemma apply_writes_overwrites ws (m1 m2 : gmap Z cell) p :
  p ∈ ws.*1 → apply_writes ws m1 !! p = apply_writes ws m2 !! p.
Proof.
  revert m1 m2. induction ws as [|w k IH]; intros m1 m2 Hp; simpl in *.
  - by apply elem_of_nil in Hp.
  - destruct (decide (p ∈ k.*1)) as [Hk|Hk]; [by apply IH|].
    apply elem_of_cons in Hp as [->|?]; [|done].
    rewrite !apply_writes_other by done. by rewrite !lookup_insert_eq.
Qed.

Lemma apply_writes_agree ws (m1 m2 : gmap Z cell) :
  (∀ p, p ∉ ws.*1 → m1 !! p = m2 !! p) →
  apply_writes ws m1 = apply_writes ws m2.
Proof.
  intros Hagree. apply map_eq. intros p.
  destruct (decide (p ∈ ws.*1)) as [Hin|Hout].
  - by apply apply_writes_overwrites.
  - rewrite !apply_writes_other by done. by apply Hagree.
Qed.

Lemma apply_writes_comm ws1 ws2 (m : gmap Z cell) :
  ws1.*1 ## ws2.*1 →
  apply_writes ws2 (apply_writes ws1 m) = apply_writes ws1 (apply_writes ws2 m).
Proof.
  intros Hdisj. apply map_eq. intros p.
  destruct (decide (p ∈ ws1.*1)) as [H1|H1].
  - assert (p ∉ ws2.*1) as H2 by (intros H2; by apply (Hdisj p)).
    rewrite (apply_writes_other ws2) by done.
    apply apply_writes_local. by rewrite apply_writes_other.
  - rewrite (apply_writes_other ws1 (apply_writes ws2 m)) by done.
    apply apply_writes_local. by rewrite apply_writes_other.
Qed.

Lemma nsteps_pool_remaining n ts ts' (m m' : gmap Z cell) :
  nsteps pool_step n (ts, m) (ts', m') →
  remaining ts = (n + remaining ts')%nat.
Proof.
  revert ts m. induction n as [|n IH]; intros ts m Hn.
  - by inversion Hn.
  - inversion Hn as [|? ? [ts1 m1] ? Hstep Hrest]; subst.
    apply pool_step_remaining in Hstep. rewrite Hstep, (IH _ _ Hrest). lia.
Qed.

Lemma remaining_finished ts : finished ts → remaining ts = 0%nat.
Proof.
  unfold remaining, finished. induction 1 as [|k ts -> _ IH]; [done|].
  exact IH.
Qed.

Section Further.

Variable cpuid_data : Z → Z → regfile.
Variable __cpuidex : Z → Z → list Z.

Local Abbreviation cpuid := (cpuid cpuid_data).
Local Abbreviation cpuid_raw_body := (cpuid_raw_body cpuid_data __cpuidex).
Local Abbreviation cpuid_raw := (cpuid_raw cpuid_data __cpuidex).
Local Abbreviation call_body := (call_body cpuid_data __cpuidex).
Local Abbreviation call_run := (call_run cpuid_data __cpuidex).
Local Abbreviation pool_inv := (pool_inv cpuid_data __cpuidex).

Implicit Types (tc : toolchain) (rf : regfile) (m : gmap Z cell).
Implicit Types (leaf subleaf eax ebx ecx edx : Z).

(** The registers found on entry never reach the stores. *)
Lemma body_ignores_rf tc rf1 rf2 leaf subleaf eax ebx ecx edx :
  cpuid_raw_body tc rf1 leaf subleaf eax ebx ecx edx
  = cpuid_raw_body tc rf2 leaf subleaf eax ebx ecx edx.
Proof. by by_branch tc. Qed.

Lemma remaining_calls tc (cs : list call) :
  remaining (call_body tc <$> cs) = (4 * length cs)%nat.
Proof.
  unfold remaining. induction cs as [|c cs IH]; [done|].
  rewrite !fmap_cons. change (sum_list (?x :: ?l)) with (x + sum_list l)%nat.
  rewrite IH. unfold_call. rewrite body_length. simpl. lia.
Qed.


(** X2: the outputs are write-only.  What the four output locations held
    before the call (values or nothing yet) has no influence: on two
    memories that agree everywhere else the call gives the same memory. *)
Theorem outputs_write_only tc rf leaf subleaf eax ebx ecx edx m1 m2 :
  writable m1 [eax; ebx; ecx; edx] →
  writable m2 [eax; ebx; ecx; edx] →
  (∀ q, q ∉ [eax; ebx; ecx; edx] → m1 !! q = m2 !! q) →
  ∃ m', cpuid_raw tc rf leaf subleaf eax ebx ecx edx m1 = Some m' ∧
        cpuid_raw tc rf leaf subleaf eax ebx ecx edx m2 = Some m'.
Proof.
  intros Hw1 Hw2 Hagree. eexists. split; [by apply cpuid_raw_writable|].
  rewrite cpuid_raw_writable by done. f_equal.
  apply apply_writes_agree. intros p Hp. symmetry. apply Hagree.
  by rewrite body_targets in Hp.
Qed.

(** X3: the function keeps nothing from one call to the next.  A call
    made through the same pointers after another one leaves the memory
    that it leaves when made alone; so when the two calls ask for the same
    leaf and subleaf, the second changes nothing. *)
Theorem later_call_overwrites tc rf1 rf2 leaf1 subleaf1 leaf2 subleaf2
    eax ebx ecx edx m :
  writable m [eax; ebx; ecx; edx] →
  ∃ m1 m2,
    cpuid_raw tc rf1 leaf1 subleaf1 eax ebx ecx edx m = Some m1 ∧
    cpuid_raw tc rf2 leaf2 subleaf2 eax ebx ecx edx m1 = Some m2 ∧
    cpuid_raw tc rf2 leaf2 subleaf2 eax ebx ecx edx m = Some m2 ∧
    (leaf1 = leaf2 → subleaf1 = subleaf2 → m2 = m1).
Proof.
  intros Hw. eexists _, _. split; [by apply cpuid_raw_writable|].
  split; [by apply cpuid_raw_writable, apply_writes_writable|].
  assert (apply_writes (cpuid_raw_body tc rf2 leaf2 subleaf2 eax ebx ecx edx) m
          = apply_writes (cpuid_raw_body tc rf2 leaf2 subleaf2 eax ebx ecx edx)
              (apply_writes
                 (cpuid_raw_body tc rf1 leaf1 subleaf1 eax ebx ecx edx) m))
    as Halone.
  { apply apply_writes_agree. intros p Hp. rewrite apply_writes_other; [done|].
    rewrite body_targets in Hp. by rewrite body_targets. }
  split.
  - rewrite cpuid_raw_writable by done. by rewrite Halone.
  - intros <- <-. rewrite <- Halone.
    by rewrite (body_ignores_rf tc rf2 rf1).
Qed.

(** X4: two calls whose output locations are disjoint can be made in
    either order: the memory after both is the same. *)
Theorem disjoint_calls_commute tc (a b : call) m :
  writable m (call_outputs a) → writable m (call_outputs b) →
  call_outputs a ## call_outputs b →
  ∃ ma mb m',
    call_run tc a m = Some ma ∧ call_run tc b ma = Some m' ∧
    call_run tc b m = Some mb ∧ call_run tc a mb = Some m'.
Proof.
  intros Ha Hb Hdisj. unfold_call. eexists _, _, _.
  split; [by apply cpuid_raw_writable|].
  split; [by apply cpuid_raw_writable, apply_writes_writable|].
  split; [by apply cpuid_raw_writable|].
  rewrite cpuid_raw_writable by by apply apply_writes_writable.
  f_equal. symmetry. apply apply_writes_comm.
  intros p Hpa Hpb. rewrite body_targets in Hpa. rewrite body_targets in Hpb.
  by apply (Hdisj p).
Qed.

(** X5: on the intrinsic path the four assignments are separate
    statements, executed in order, so when pointers coincide the last
    store wins: [*edx] always ends as [regs[3]], and each earlier output
    keeps its own element exactly when no later pointer equals it.  With
    all four pointers equal the location holds [regs[3]]. *)
Theorem intrinsic_last_store_wins tc rf leaf subleaf eax ebx ecx edx m
    r0 r1 r2 r3 :
  _MSC_VER tc = true →
  __cpuidex (to_int leaf) (to_int subleaf) = [r0; r1; r2; r3] →
  writable m [eax; ebx; ecx; edx] →
  ∃ m', cpuid_raw tc rf leaf subleaf eax ebx ecx edx m = Some m' ∧
        m' !! edx = Some (Word (to_uint32 r3)) ∧
        (ecx ≠ edx → m' !! ecx = Some (Word (to_uint32 r2))) ∧
        (ebx ≠ ecx → ebx ≠ edx → m' !! ebx = Some (Word (to_uint32 r1))) ∧
        (eax ≠ ebx → eax ≠ ecx → eax ≠ edx →
         m' !! eax = Some (Word (to_uint32 r0))).
Proof.
  intros Hmsc Hregs Hw. eexists. split; [by apply cpuid_raw_writable|].
  unfold_body. rewrite Hmsc. unfold_arms. rewrite Hregs. simpl.
  split_and!; intros; by simplify_map_eq.
Qed.

(** X6: the two hardware paths agree.  If the intrinsic does what its
    vendor documents (it runs the instruction with its two arguments in
    EAX and ECX and returns the four registers as [int]s), then for every
    [uint32_t] leaf and subleaf a build with [_MSC_VER] performs the very
    stores a build with [__GNUC__] or [__clang__] performs, and so leaves
    the same memory. *)
Theorem intrinsic_agrees_with_asm tc1 tc2 rf1 rf2 leaf subleaf
    eax ebx ecx edx m :
  (∀ a c, __cpuidex a c =
          let r := cpuid {| EAX := to_uint32 a; EBX := EBX rf1;
                            ECX := to_uint32 c; EDX := EDX rf1 |} in
          [to_int (EAX r); to_int (EBX r); to_int (ECX r); to_int (EDX r)]) →
  _MSC_VER tc1 = true →
  _MSC_VER tc2 = false → __GNUC__ tc2 || __clang__ tc2 = true →
  is_uint32 leaf → is_uint32 subleaf →
  cpuid_raw_body tc1 rf1 leaf subleaf eax ebx ecx edx
  = cpuid_raw_body tc2 rf2 leaf subleaf eax ebx ecx edx ∧
  cpuid_raw tc1 rf1 leaf subleaf eax ebx ecx edx m
  = cpuid_raw tc2 rf2 leaf subleaf eax ebx ecx edx m.
Proof.
  intros Hdoc Hmsc1 Hmsc2 Hgnu2 Hleaf Hsub.
  assert (cpuid_raw_body tc1 rf1 leaf subleaf eax ebx ecx edx
          = cpuid_raw_body tc2 rf2 leaf subleaf eax ebx ecx edx) as Hbody.
  { unfold_body. rewrite Hmsc1, Hmsc2, Hgnu2. unfold_arms.
    rewrite Hdoc. simpl.
    rewrite !to_uint32_to_int, !to_uint32_idemp.
    by rewrite (to_uint32_small leaf), (to_uint32_small subleaf). }
  split; [done|]. unfold_run. by rewrite Hbody.
Qed.

(** X7: calls running at once never wait for one another.  From [N]
    calls started together no schedule takes more than [4 * N] steps, and
    a schedule that finishes every thread takes exactly that many. *)
Theorem pool_schedule_length tc (cs : list call) m (n : nat) ts m' :
  nsteps pool_step n (call_body tc <$> cs, m) (ts, m') →
  (n ≤ 4 * length cs)%nat ∧ (finished ts → n = (4 * length cs)%nat).
Proof.
  intros Hn. apply nsteps_pool_remaining in Hn.
  rewrite remaining_calls in Hn. split; [lia|].
  intros Hfin. rewrite (remaining_finished ts Hfin) in Hn. lia.
Qed.

Lemma pool_frame_steps tc (cs : list call) m0 cfg cfg' p :
  (∀ (i j : nat) ci cj, cs !! i = Some ci → cs !! j = Some cj → i ≠ j →
     call_outputs ci ## call_outputs cj) →
  (∀ c, c ∈ cs → p ∉ call_outputs c) →
  pool_inv tc cs m0 cfg → rtc pool_step cfg cfg' → cfg'.2 !! p = cfg.2 !! p.
Proof.
  intros Hprivate Hout Hinv Hrtc.
  induction Hrtc as [|cfg1 cfg2 cfg3 Hstep _ IH]; [done|].
  rewrite IH by by eapply pool_inv_step.
  destruct Hinv as (_ & Hlen & Hthr).
  destruct Hstep as [i ts k k' m m' Hi Hst]. simpl in *.
  inversion Hst as [w ? ? ? Hstore]; subst.
  apply store32_inv in Hstore as [_ ->].
  destruct (lookup_lt_is_Some_2 cs i) as [c Hc].
  { rewrite <- Hlen. by eapply lookup_lt_Some. }
  destruct (Hthr i c _ Hc Hi) as [Hown _].
  apply lookup_insert_ne. intros <-.
  apply (Hout c); [by eapply list_elem_of_lookup_2|].
  apply Hown. simpl. by left.
Qed.

(** X8: calls running at once, each with outputs of its own, touch
    nothing else.  In every configuration a schedule can reach, finished
    or not, faulted or not, the live objects are those of the start and
    every object that is no call's output holds what it held at the
    start. *)
Theorem pool_frame tc (cs : list call) m ts m' :
  (∀ (i j : nat) ci cj, cs !! i = Some ci → cs !! j = Some cj → i ≠ j →
     call_outputs ci ## call_outputs cj) →
  rtc pool_step (call_body tc <$> cs, m) (ts, m') →
  dom m' = dom m ∧
  ∀ p, (∀ c, c ∈ cs → p ∉ call_outputs c) → m' !! p = m !! p.
Proof.
  intros Hprivate Hrtc. split.
  - by destruct (pool_inv_rtc cpuid_data __cpuidex tc cs m Hprivate _ Hrtc)
      as (Hdom & _).
  - intros p Hout.
    apply (pool_frame_steps tc cs m _ (ts, m') p Hprivate Hout
             (pool_inv_init cpuid_data __cpuidex tc cs m) Hrtc).
Qed.

Lemma pool_inv_settled tc (cs : list call) m0 ts m c p :
  pool_inv tc cs m0 (ts, m) → finished ts →
  c ∈ cs → p ∈ call_outputs c →
  m !! p = apply_writes (call_body tc c) m0 !! p.
Proof.
  intros (_ & Hlen & Hthr) Hfin Hc Hp. simpl in *.
  apply list_elem_of_lookup_1 in Hc as [i Hi].
  destruct (lookup_lt_is_Some_2 ts i) as [k Hk].
  { rewrite Hlen. by eapply lookup_lt_Some. }
  unfold finished in Hfin. rewrite Forall_lookup in Hfin.
  pose proof (Hfin i k Hk) as ->.
  destruct (Hthr i c [] Hi Hk) as [_ Hres]. exact (Hres p Hp).
Qed.

(** X9: the outcome of calls running at once does not depend on the
    schedule.  When each call has outputs of its own, any two schedules
    that finish every thread end in the same memory. *)
Theorem pool_schedule_independent tc (cs : list call) m ts1 m1 ts2 m2 :
  (∀ (i j : nat) ci cj, cs !! i = Some ci → cs !! j = Some cj → i ≠ j →
     call_outputs ci ## call_outputs cj) →
  rtc pool_step (call_body tc <$> cs, m) (ts1, m1) → finished ts1 →
  rtc pool_step (call_body tc <$> cs, m) (ts2, m2) → finished ts2 →
  m1 = m2.
Proof.
  intros Hprivate Hrtc1 Hfin1 Hrtc2 Hfin2.
  pose proof (pool_inv_init cpuid_data __cpuidex tc cs m) as Hinit.
  pose proof (pool_inv_rtc cpuid_data __cpuidex tc cs m Hprivate _ Hrtc1)
    as Hinv1.
  pose proof (pool_inv_rtc cpuid_data __cpuidex tc cs m Hprivate _ Hrtc2)
    as Hinv2.
  apply map_eq. intros p.
  destruct (decide (Exists (λ c, p ∈ call_outputs c) cs)) as [Hex|Hnone].
  - apply Exists_exists in Hex as (c & Hc & Hp).
    rewrite (pool_inv_settled tc cs m ts1 m1 c p) by done.
    by rewrite (pool_inv_settled tc cs m ts2 m2 c p).
  - assert (∀ c, c ∈ cs → p ∉ call_outputs c) as Hout.
    { intros c Hc Hp. apply Hnone, Exists_exists. eauto. }
    etrans;
      [exact (pool_frame_steps tc cs m _ (ts1, m1) p Hprivate Hout Hinit
                Hrtc1)|].
    symmetry.
    exact (pool_frame_steps tc cs m _ (ts2, m2) p Hprivate Hout Hinit Hrtc2).
Qed.

End Further.

(** * The further properties on the sample processor *)


(** Fresh locals and used locals give the same memory. *)
Lemma outputs_write_only_witness :
  ∃ m', cpuid_raw sample_cpuid_data sample_cpuidex gcc sample_rf
          0 0 100 101 102 103 sample_memory = Some m' ∧
        cpuid_raw sample_cpuid_data sample_cpuidex gcc sample_rf
          0 0 100 101 102 103 sample_memory_used = Some m'.
Proof.
  apply (outputs_write_only sample_cpuid_data sample_cpuidex gcc sample_rf
           0 0 100 101 102 103 sample_memory sample_memory_used);
    [all_writable|all_writable|].
  intros q Hq. rewrite !not_elem_of_cons in Hq.
  destruct Hq as (? & ? & ? & ? & _).
  unfold sample_memory_used. by rewrite !lookup_insert_ne.
Defined.

(** Leaf 0, then leaf 0x80000000 into the same locals. *)
Lemma later_call_overwrites_witness :
  ∃ m1 m2,
    cpuid_raw sample_cpuid_data sample_cpuidex msvc sample_rf
      0 0 100 101 102 103 sample_memory = Some m1 ∧
    cpuid_raw sample_cpuid_data sample_cpuidex msvc other_rf
      0x80000000 0 100 101 102 103 m1 = Some m2 ∧
    cpuid_raw sample_cpuid_data sample_cpuidex msvc other_rf
      0x80000000 0 100 101 102 103 sample_memory = Some m2.
Proof.
  destruct (later_call_overwrites sample_cpuid_data sample_cpuidex msvc
              sample_rf other_rf 0 0 0x80000000 0 100 101 102 103
              sample_memory) as (m1 & m2 & H1 & H2 & H3 & _);
    [all_writable|].
  by exists m1, m2.
Defined.

(** The two sample calls in both orders. *)
Lemma disjoint_calls_commute_witness :
  ∃ ma mb m',
    call_run sample_cpuid_data sample_cpuidex gcc sample_call_basic
      sample_pool_memory = Some ma ∧
    call_run sample_cpuid_data sample_cpuidex gcc sample_call_extended
      ma = Some m' ∧
    call_run sample_cpuid_data sample_cpuidex gcc sample_call_extended
      sample_pool_memory = Some mb ∧
    call_run sample_cpuid_data sample_cpuidex gcc sample_call_basic
      mb = Some m'.
Proof.
  apply (disjoint_calls_commute sample_cpuid_data sample_cpuidex gcc
           sample_call_basic sample_call_extended sample_pool_memory);
    [all_writable|all_writable|].
  intros p Hp Hq. unfold call_outputs in Hp, Hq. simpl in Hp, Hq.
  rewrite !elem_of_cons, elem_of_nil in Hp.
  rewrite !elem_of_cons, elem_of_nil in Hq. lia.
Defined.

(** One local passed four times ends as the fourth element, "ineI". *)
Lemma intrinsic_last_store_wins_witness :
  ∃ m', cpuid_raw sample_cpuid_data sample_cpuidex msvc sample_rf
          0 0 100 100 100 100 sample_memory = Some m' ∧
        m' !! 100 = Some (Word (to_uint32 0x49656e69)).
Proof.
  destruct (intrinsic_last_store_wins sample_cpuid_data sample_cpuidex msvc
              sample_rf 0 0 100 100 100 100 sample_memory
              0x16 0x756e6547 0x6c65746e 0x49656e69)
    as (m' & Hrun & Hlast & _);
    [reflexivity|reflexivity|all_writable|].
  by exists m'.
Defined.

(** The sample intrinsic is the documented one; leaf 0x80000000 gives the
    same memory on both paths. *)
Lemma intrinsic_agrees_with_asm_witness :
  cpuid_raw sample_cpuid_data sample_cpuidex msvc sample_rf
    0x80000000 0 100 101 102 103 sample_memory
  = cpuid_raw sample_cpuid_data sample_cpuidex gcc other_rf
      0x80000000 0 100 101 102 103 sample_memory.
Proof.
  apply (intrinsic_agrees_with_asm sample_cpuid_data sample_cpuidex msvc gcc
           sample_rf other_rf 0x80000000 0 100 101 102 103 sample_memory);
    [intros a c; reflexivity|reflexivity|reflexivity|reflexivity| |];
    unfold is_uint32; lia.
Defined.

(** A complete schedule of the two sample threads, taking turns. *)
Lemma sample_schedule :
  ∃ m', nsteps pool_step 8
          (call_body sample_cpuid_data sample_cpuidex gcc <$> sample_calls,
           sample_pool_memory) ([[]; []], m').
Proof.
  eexists.
  do 4 (eapply nsteps_l;
          [eapply (pool_step_thread 0); [reflexivity|by constructor]|];
        eapply nsteps_l;
          [eapply (pool_step_thread 1); [reflexivity|by constructor]|]).
  apply nsteps_O.
Defined.

(** That schedule: eight steps for two calls. *)
Lemma pool_schedule_length_witness :
  (8 ≤ 4 * length sample_calls)%nat ∧ 8%nat = (4 * length sample_calls)%nat.
Proof.
  destruct sample_schedule as [m' Hsched].
  destruct (pool_schedule_length sample_cpuid_data sample_cpuidex gcc
              sample_calls sample_pool_memory 8 [[]; []] m' Hsched)
    as [Hle Heq].
  split; [exact Hle|]. apply Heq. by repeat constructor.
Defined.

(** That schedule leaves the object at 200 alone. *)
Lemma pool_frame_witness :
  ∃ m', nsteps pool_step 8
          (call_body sample_cpuid_data sample_cpuidex gcc <$> sample_calls,
           sample_pool_memory) ([[]; []], m') ∧
        dom m' = dom sample_pool_memory ∧
        m' !! 200 = sample_pool_memory !! 200.
Proof.
  destruct sample_schedule as [m' Hsched]. exists m'. split; [done|].
  destruct (pool_frame sample_cpuid_data sample_cpuidex gcc sample_calls
              sample_pool_memory [[]; []] m') as [Hdom Hframe].
  - intros [|[|i]] [|[|j]] ci cj Hi Hj Hne; simplify_eq/=;
      intros p Hp Hq; unfold call_outputs in Hp, Hq; simpl in Hp, Hq;
      rewrite !elem_of_cons, elem_of_nil in Hp;
      rewrite !elem_of_cons, elem_of_nil in Hq; lia.
  - by eapply rtc_nsteps_2.
  - split; [done|]. apply Hframe. intros c Hc. unfold sample_calls in Hc.
    repeat (apply elem_of_cons in Hc as [->|Hc]);
      [| |by apply elem_of_nil in Hc];
      unfold call_outputs; simpl;
      rewrite !not_elem_of_cons; split_and!; try lia; apply not_elem_of_nil.
Defined.

(** Another complete schedule: the second thread first, then the first. *)
Lemma sample_schedule_in_turn :
  ∃ m', nsteps pool_step 8
          (call_body sample_cpuid_data sample_cpuidex gcc <$> sample_calls,
           sample_pool_memory) ([[]; []], m').
Proof.
  eexists.
  do 4 (eapply nsteps_l;
          [eapply (pool_step_thread 1); [reflexivity|by constructor]|]).
  do 4 (eapply nsteps_l;
          [eapply (pool_step_thread 0); [reflexivity|by constructor]|]).
  apply nsteps_O.
Defined.

(** Taking turns or running one after the other: the same memory. *)
Lemma pool_schedule_independent_witness :
  ∃ m1 m2,
    nsteps pool_step 8
      (call_body sample_cpuid_data sample_cpuidex gcc <$> sample_calls,
       sample_pool_memory) ([[]; []], m1) ∧
    nsteps pool_step 8
      (call_body sample_cpuid_data sample_cpuidex gcc <$> sample_calls,
       sample_pool_memory) ([[]; []], m2) ∧
    m1 = m2.
Proof.
  destruct sample_schedule as [m1 Hs1].
  destruct sample_schedule_in_turn as [m2 Hs2].
  exists m1, m2. split_and!; [done..|].
  apply (pool_schedule_independent sample_cpuid_data sample_cpuidex gcc
           sample_calls sample_pool_memory [[]; []] m1 [[]; []] m2).
  - intros [|[|i]] [|[|j]] ci cj Hi Hj Hne; simplify_eq/=;
      intros p Hp Hq; unfold call_outputs in Hp, Hq; simpl in Hp, Hq;
      rewrite !elem_of_cons, elem_of_nil in Hp;
      rewrite !elem_of_cons, elem_of_nil in Hq; lia.
  - by eapply rtc_nsteps_2.
  - by repeat constructor.
  - by eapply rtc_nsteps_2.
  - by repeat constructor.
Defined.
